(** * Label suggestions of the alert-rule editor

    A shallow embedding of
    [public/app/features/alerting/unified/components/rule-editor/LabelsField.tsx]:
    the hook [useGetCustomLabels], which aggregates the labels of the rules
    of a data source into [labelsByKey], the helper [mapLabelsToOptions], and
    the state and event handlers of [LabelsWithSuggestions] and
    [LabelsWithoutSuggestions]. *)

From stdpp Require Import base decidable option list strings gmap.

Open Scope string_scope.
Set Warnings "-clear-no-such-hyp".

(** ** The JavaScript values the component works with *)

(** A call either completes normally or throws.  The only exception the
    file can raise is a [TypeError] (calling a member that is not a
    function, reading a property of [undefined]). *)
Inductive Completion (A : Type) : Type :=
  | Normal (a : A)
  | ThrowTypeError.
Arguments Normal {A} a.
Arguments ThrowTypeError {A}.

Definition bind {A B} (c : Completion A) (k : A → Completion B) : Completion B :=
  match c with
  | Normal a => k a
  | ThrowTypeError => ThrowTypeError
  end.

Notation "x ←! c ; k" := (bind c (λ x, k))
  (at level 20, c at level 100, k at level 200, right associativity, only parsing).

(** [Array.prototype.forEach] with a callback that updates the object [s]
    it closes over; an exception in the callback ends the loop. *)
Fixpoint forEach {A S} (callback : S → A → Completion S) (array : list A) (s : S)
  : Completion S :=
  match array with
  | [] => Normal s
  | x :: rest => s' ←! callback s x; forEach callback rest s'
  end.

(** Truthiness of a string: only the empty string is falsy. *)
Definition truthy (s : string) : bool := bool_decide (s ≠ "").

(** [Boolean(x)] (and [!!x]) for [x] a string or [undefined]. *)
Definition Boolean (x : option string) : bool :=
  match x with
  | Some s => truthy s
  | None => false
  end.

(** [Set<string>]: the elements in insertion order, each once. *)
Abbreviation JSSet := (list string).

(** [set.add(v)] *)
Definition Set_add (v : string) (s : JSSet) : JSSet :=
  if decide (v ∈ s) then s else s ++ [v].

(** [new Set(values)] *)
Definition Set_new (values : list string) : JSSet :=
  foldl (λ s v, Set_add v s) [] values.

(** The members every object literal inherits from [Object.prototype]:
    eleven built-in functions, with their [length], and the accessor
    [__proto__], whose value is [Object.prototype] itself. *)
Inductive ProtoMember : Type :=
  | BuiltinFunction (length : nat)
  | PrototypeObject.

Definition Object_prototype : list (string * ProtoMember) :=
  [ ("constructor", BuiltinFunction 1);
    ("__defineGetter__", BuiltinFunction 2);
    ("__defineSetter__", BuiltinFunction 2);
    ("hasOwnProperty", BuiltinFunction 1);
    ("__lookupGetter__", BuiltinFunction 1);
    ("__lookupSetter__", BuiltinFunction 1);
    ("isPrototypeOf", BuiltinFunction 1);
    ("propertyIsEnumerable", BuiltinFunction 1);
    ("toString", BuiltinFunction 0);
    ("valueOf", BuiltinFunction 0);
    ("toLocaleString", BuiltinFunction 0);
    ("__proto__", PrototypeObject) ].

Fixpoint assoc {V} (key : string) (members : list (string * V)) : option V :=
  match members with
  | [] => None
  | (k, v) :: rest => if decide (k = key) then Some v else assoc key rest
  end.

(** What reading a property of [labelsByKey] can evaluate to. *)
Inductive JSValue : Type :=
  | Undefined
  | SetObject (s : JSSet)
  | Inherited (m : ProtoMember).

(** [labelsByKey] is created by the literal [{}]: its own properties are
    the keys the loop assigns, each holding a [Set]; every other name is
    looked up on [Object.prototype]. *)
Abbreviation LabelsByKey := (gmap string JSSet).

(** [labelsByKey[key]] *)
Definition Get (labelsByKey : LabelsByKey) (key : string) : JSValue :=
  match labelsByKey !! key with
  | Some s => SetObject s
  | None =>
      match assoc key Object_prototype with
      | Some m => Inherited m
      | None => Undefined
      end
  end.

(** The [length] that [Array.from] reads from a value that is not
    iterable: a function's number of parameters, nothing on
    [Object.prototype]. *)
Definition arrayLikeLength (m : ProtoMember) : nat :=
  match m with
  | BuiltinFunction length => length
  | PrototypeObject => 0
  end.

(** ** The rule-group configuration (the ruler DTOs) *)

(** [Labels = Record<string, string>]: the entries as [Object.entries]
    lists them. *)
Abbreviation Labels := (list (string * string)).

(** A rule; only its optional [labels] are read. *)
Module RulerRuleDTO.
Record t : Type := { labels : option Labels }.
#[global] Instance eq_dec : EqDecision t.
Proof. solve_decision. Defined.
End RulerRuleDTO.

(** A rule group; only its [rules] are read. *)
Module RulerRuleGroupDTO.
Record t : Type := { rules : list RulerRuleDTO.t }.
#[global] Instance eq_dec : EqDecision t.
Proof. solve_decision. Defined.
End RulerRuleGroupDTO.

(** [RulerRulesConfigDTO]: namespace to groups, as [Object.values]
    walks it. *)
Abbreviation RulerRulesConfigDTO := (list (string * list RulerRuleGroupDTO.t)).

(** The request slice [state.rulerRules[dataSourceName]]. *)
Module AsyncRequestState.
Record t : Type := { loading : bool; result : option RulerRulesConfigDTO }.
#[global] Instance eq_dec : EqDecision t.
Proof. solve_decision. Defined.
End AsyncRequestState.

(** ** [useGetCustomLabels]: the aggregation *)

(** The callback of [Object.entries(rule.labels).forEach] (lines 55-66).
    A truthy [labelEntry] that is not a [Set] has no [add] method, and
    calling it throws. *)
Definition addLabel (labelsByKey : LabelsByKey) (entry : string * string)
  : Completion LabelsByKey :=
  let '(key, value) := entry in
  if negb (truthy value) then Normal labelsByKey
  else
    match Get labelsByKey key with
    | SetObject labelEntry => Normal (<[key := Set_add value labelEntry]> labelsByKey)
    | Inherited _ => ThrowTypeError
    | Undefined => Normal (<[key := Set_new [value]]> labelsByKey)
    end.

(** The callback of [allRules.forEach] (lines 53-68). *)
Definition addRule (labelsByKey : LabelsByKey) (rule : RulerRuleDTO.t)
  : Completion LabelsByKey :=
  match RulerRuleDTO.labels rule with
  | Some entries => forEach addLabel entries labelsByKey
  | None => Normal labelsByKey
  end.

(** [Object.values(config).flatMap(groups => groups).flatMap(group => group.rules)] *)
Definition allRules (rulerRulesConfig : RulerRulesConfigDTO) : list RulerRuleDTO.t :=
  flat_map RulerRuleGroupDTO.rules (flat_map snd rulerRulesConfig).

(** The body of the memoised callback (lines 42-70), as a function of
    [rulerRequest?.result]. *)
Definition buildSuggestionIndex (rulerRulesConfig : option RulerRulesConfigDTO)
  : Completion LabelsByKey :=
  match rulerRulesConfig with
  | None => Normal ∅
  | Some config => forEach addRule (allRules config) ∅
  end.

(** The callback applied to [rulerRequest], which is [undefined] until
    the fetch has been dispatched. *)
Definition labelsByKeyResult (rulerRequest : option AsyncRequestState.t)
  : Completion LabelsByKey :=
  buildSuggestionIndex (rulerRequest ≫= AsyncRequestState.result).

(** An object of the store as a render sees it: which object it is, and
    what it holds at that render.  [None] is [undefined]. *)
Abbreviation Reference A := (option (nat * A)).

Definition identityOf {A} (dep : Reference A) : option nat := fst <$> dep.

Definition contentOf {A} (dep : Reference A) : option A := snd <$> dep.

(** Modelled from the spec: React's [useMemo(factory, [dep])], which the
    source only calls ("input-identity-based recomputation avoidance").
    The cell keeps which object the dependency was and the value of the
    last completed computation; the callback runs again when the
    dependency is another object ([Object.is]), not when the same object
    holds something else, and a callback that throws leaves the cell as it
    was. *)
Definition useMemo {A V} (factory : option A → Completion V) (dep : Reference A)
    (cell : option (option nat * V)) : Completion V * option (option nat * V) :=
  let recompute :=
    match factory (contentOf dep) with
    | Normal v => (Normal v, Some (identityOf dep, v))
    | ThrowTypeError => (ThrowTypeError, cell)
    end in
  match cell with
  | Some (identity, v) =>
      if decide (identity = identityOf dep) then (Normal v, cell) else recompute
  | None => recompute
  end.

(** One render of the hook: [labelsByKeyResult] of line 41, with
    [rulerRequest] the object [state.rulerRules[dataSourceName]]. *)
Definition renderHook (rulerRequest : Reference AsyncRequestState.t)
    (cell : option (option nat * LabelsByKey))
  : Completion LabelsByKey * option (option nat * LabelsByKey) :=
  useMemo labelsByKeyResult rulerRequest cell.

(** The memo cell after the renders of a mounted hook, oldest first. *)
Definition cellAfter (history : list (Reference AsyncRequestState.t))
  : option (option nat * LabelsByKey) :=
  foldl (λ cell rulerRequest, snd (renderHook rulerRequest cell)) None history.

(** ** [mapLabelsToOptions] and the value suggestions *)

Module SelectableValue.
Record t : Type := { label : option string; value : option string }.
End SelectableValue.

(** [Array.from(items, item => ({ label: item, value: item }))], with the
    default [items = []].  A [Set] is iterated in insertion order; a value
    that is not iterable is read as an array-like, whose indexed elements
    are all [undefined]. *)
Definition mapLabelsToOptions (items : JSValue) : list SelectableValue.t :=
  match items with
  | Undefined => []
  | SetObject s =>
      map (λ item, {| SelectableValue.label := Some item;
                      SelectableValue.value := Some item |}) s
  | Inherited m =>
      replicate (arrayLikeLength m)
        {| SelectableValue.label := None; SelectableValue.value := None |}
  end.

(** [getValuesForLabel] (lines 138-143). *)
Definition getValuesForLabel (labelsByKey : LabelsByKey) (key : string)
  : list SelectableValue.t :=
  mapLabelsToOptions (Get labelsByKey key).

(** ** The editor's state and event handlers *)

Module LabelEntry.
Record t : Type := { key : string; value : string }.
End LabelEntry.

(** What [LabelsWithSuggestions] renders from: the watched form values
    [labels] and the [selectedKey] of [useState('')]. *)
Record State : Type := { labels : list LabelEntry.t; selectedKey : string }.

(** [values] (lines 145-147): the options of every value dropdown. *)
Definition values (labelsByKey : LabelsByKey) (s : State) : list SelectableValue.t :=
  getValuesForLabel labelsByKey (selectedKey s).

(** Modelled from the spec: the form library's [append], which the source
    only calls: it adds the entry at the end of the list. *)
Definition append (entry : LabelEntry.t) (ls : list LabelEntry.t) : list LabelEntry.t :=
  ls ++ [entry].

(** Modelled from the spec: the form library's [remove], which the source
    only calls: it removes the entry at [index], and does nothing when
    [index] is out of bounds. *)
Definition remove (index : nat) (ls : list LabelEntry.t) : list LabelEntry.t :=
  delete index ls.

(** Modelled from the spec: the form library's [setValue], which the
    source only calls, at the paths [labels.index.key] and
    [labels.index.value]: it replaces that field of the entry at [index];
    an index out of range is ignored. *)
Definition setValue_key (index : nat) (v : string) (ls : list LabelEntry.t)
  : list LabelEntry.t :=
  alter (λ e, {| LabelEntry.key := v; LabelEntry.value := LabelEntry.value e |}) index ls.

Definition setValue_value (index : nat) (v : string) (ls : list LabelEntry.t)
  : list LabelEntry.t :=
  alter (λ e, {| LabelEntry.key := LabelEntry.key e; LabelEntry.value := v |}) index ls.

(** [AddButton]'s [onClick] (lines 109-111). *)
Definition addEntry (s : State) : State :=
  {| labels := append {| LabelEntry.key := ""; LabelEntry.value := "" |} (labels s);
     selectedKey := selectedKey s |}.

(** [RemoveButton]'s [onClick] (lines 91-93). *)
Definition removeEntry (index : nat) (s : State) : State :=
  {| labels := remove index (labels s); selectedKey := selectedKey s |}.

(** [onChange] of the key dropdown (lines 170-173), [newKey] being
    [newValue.value]. *)
Definition setEntryKey (index : nat) (newKey : string) (s : State) : State :=
  {| labels := setValue_key index newKey (labels s); selectedKey := newKey |}.

(** [onChange] of the value dropdown (lines 190-192). *)
Definition setEntryValue (index : nat) (newValue : string) (s : State) : State :=
  {| labels := setValue_value index newValue (labels s); selectedKey := selectedKey s |}.

(** [onOpenMenu] of the value dropdown (lines 193-195):
    [labels[index].key] throws when there is no entry at [index]. *)
Definition onOpenValueSuggestions (index : nat) (s : State) : Completion State :=
  match labels s !! index with
  | Some entry => Normal {| labels := labels s; selectedKey := LabelEntry.key entry |}
  | None => ThrowTypeError
  end.

(** The events of the editor. *)
Inductive Event : Type :=
  | AddEntry
  | RemoveEntry (index : nat)
  | SetEntryKey (index : nat) (newKey : string)
  | SetEntryValue (index : nat) (newValue : string)
  | OpenValueSuggestions (index : nat).

Definition handle (ev : Event) (s : State) : Completion State :=
  match ev with
  | AddEntry => Normal (addEntry s)
  | RemoveEntry index => Normal (removeEntry index s)
  | SetEntryKey index newKey => Normal (setEntryKey index newKey s)
  | SetEntryValue index newValue => Normal (setEntryValue index newValue s)
  | OpenValueSuggestions index => onOpenValueSuggestions index s
  end.

(** ** Validation rules *)

(** The [required] option passed to [register]: [{ value, message }]. *)
Module ValidationRule.
Record t : Type := { value : bool; message : string }.
End ValidationRule.

(** The rule of the key field in [LabelsWithSuggestions] (line 166). *)
Definition keyRequired (ls : list LabelEntry.t) (index : nat) : ValidationRule.t :=
  {| ValidationRule.value := Boolean (LabelEntry.value <$> ls !! index);
     ValidationRule.message := "Required." |}.

(** The rule of the value field in [LabelsWithSuggestions] (line 186). *)
Definition valueRequired (ls : list LabelEntry.t) (index : nat) : ValidationRule.t :=
  {| ValidationRule.value := Boolean (LabelEntry.key <$> ls !! index);
     ValidationRule.message := "Required." |}.

(** The same rules in [LabelsWithoutSuggestions], written with [!!]
    (lines 237 and 252). *)
Definition keyRequiredPlain (ls : list LabelEntry.t) (index : nat) : ValidationRule.t :=
  {| ValidationRule.value := negb (negb (Boolean (LabelEntry.value <$> ls !! index)));
     ValidationRule.message := "Required." |}.

Definition valueRequiredPlain (ls : list LabelEntry.t) (index : nat) : ValidationRule.t :=
  {| ValidationRule.value := negb (negb (Boolean (LabelEntry.key <$> ls !! index)));
     ValidationRule.message := "Required." |}.

(** Modelled from the spec: how the form library, which the source only
    configures, applies a [required] rule: the field is reported with the
    rule's message when the rule is switched on and the field is empty, and
    is valid ([None]) otherwise. *)
Definition applyRequired (rule : ValidationRule.t) (field : option string) : option string :=
  if ValidationRule.value rule && negb (Boolean field)
  then Some (ValidationRule.message rule)
  else None.

Definition validateKey (ls : list LabelEntry.t) (index : nat) : option string :=
  applyRequired (keyRequired ls index) (LabelEntry.key <$> ls !! index).

Definition validateValue (ls : list LabelEntry.t) (index : nat) : option string :=
  applyRequired (valueRequired ls index) (LabelEntry.value <$> ls !! index).

Definition validateKeyPlain (ls : list LabelEntry.t) (index : nat) : option string :=
  applyRequired (keyRequiredPlain ls index) (LabelEntry.key <$> ls !! index).

Definition validateValuePlain (ls : list LabelEntry.t) (index : nat) : option string :=
  applyRequired (valueRequiredPlain ls index) (LabelEntry.value <$> ls !! index).

(** ** Configurations used in the examples *)

Definition rule (entries : Labels) : RulerRuleDTO.t :=
  {| RulerRuleDTO.labels := Some entries |}.

Definition ruleWithoutLabels : RulerRuleDTO.t :=
  {| RulerRuleDTO.labels := None |}.

Definition namespace (name : string) (rs : list RulerRuleDTO.t)
  : string * list RulerRuleGroupDTO.t :=
  (name, [ {| RulerRuleGroupDTO.rules := rs |} ]).

(** [{ ns: [{ rules: [{labels:{sev:"high"}}, {labels:{sev:"low"}}, {labels:{sev:""}}] }] }] *)
Definition sevConfig : RulerRulesConfigDTO :=
  [ namespace "ns" [ rule [("sev", "high")]; rule [("sev", "low")]; rule [("sev", "")] ] ].

(** [{ ns: [{ rules: [{labels:{constructor:"x"}}] }] }] *)
Definition constructorConfig : RulerRulesConfigDTO :=
  [ namespace "ns" [ rule [("constructor", "x")] ] ].

(** [{ ns: [{ rules: [{}, {labels:{constructor:"x"}}] }] }] *)
Definition missingLabelsConfig : RulerRulesConfigDTO :=
  [ namespace "ns" [ ruleWithoutLabels; rule [("constructor", "x")] ] ].

(** ** What the theorems speak of *)

(** The value [v] is in the set stored under the key [k]. *)
Definition suggests (labelsByKey : LabelsByKey) (k v : string) : Prop :=
  ∃ s, labelsByKey !! k = Some s ∧ v ∈ s.

(** Some rule in [rs] carries the label pair [(k, v)]. *)
Definition rulesCarry (rs : list RulerRuleDTO.t) (k v : string) : Prop :=
  ∃ r entries, r ∈ rs ∧ RulerRuleDTO.labels r = Some entries ∧ (k, v) ∈ entries.

(** Some rule in some group of some namespace carries [(k, v)]. *)
Definition carries (config : RulerRulesConfigDTO) (k v : string) : Prop :=
  ∃ ns groups group r entries,
    (ns, groups) ∈ config ∧ group ∈ groups ∧ r ∈ RulerRuleGroupDTO.rules group ∧
    RulerRuleDTO.labels r = Some entries ∧ (k, v) ∈ entries.

(** The name [k] is a member of [Object.prototype]. *)
Definition inherited (k : string) : Prop := is_Some (assoc k Object_prototype).

(** A label pair with a non-empty value under an inherited name, and a
    rule that has one. *)
Definition badEntry (entry : string * string) : Prop :=
  entry.2 ≠ "" ∧ inherited entry.1.

Definition badRule (r : RulerRuleDTO.t) : Prop :=
  ∃ entries entry, RulerRuleDTO.labels r = Some entries ∧ entry ∈ entries ∧ badEntry entry.

(** Every stored set has an element, lists each element once, and no own
    key hides a member of [Object.prototype]. *)
Definition wellFormed (labelsByKey : LabelsByKey) : Prop :=
  ∀ k s, labelsByKey !! k = Some s → s ≠ [] ∧ NoDup s ∧ ¬ inherited k.

(** The store never changes an object in place: whenever two renders see
    the same object, they see the same content. *)
Definition immutable (history : list (Reference AsyncRequestState.t)) : Prop :=
  ∀ dep dep', dep ∈ history → dep' ∈ history →
    identityOf dep = identityOf dep' → contentOf dep = contentOf dep'.

(** The memo cell holds what the callback computed from an object some
    render saw. *)
Definition cellConsistent (seen : list (Reference AsyncRequestState.t))
    (cell : option (option nat * LabelsByKey)) : Prop :=
  ∀ identity v, cell = Some (identity, v) →
    ∃ dep, dep ∈ seen ∧ identityOf dep = identity ∧
           labelsByKeyResult (contentOf dep) = Normal v.

(** ** The key options, the rendered rows and [LabelsField] *)

(** [keys] (lines 134-136), [ownKeys] being the array
    [Object.keys(labelsByKey)], which [Array.from] walks in order. *)
Definition keys (ownKeys : list string) : list SelectableValue.t :=
  (λ item, {| SelectableValue.label := Some item; SelectableValue.value := Some item |})
    <$> ownKeys.

(** [ownKeys] lists the own keys of the index, each once. *)
Definition enumerates (ownKeys : list string) (labelsByKey : LabelsByKey) : Prop :=
  NoDup ownKeys ∧ ∀ k, k ∈ ownKeys ↔ is_Some (labelsByKey !! k).



(** [formState.errors.labels[index]]: the messages of the two fields. *)
Module FieldErrors.
Record t : Type := { key : option string; value : option string }.
End FieldErrors.

(** What a row of [LabelsWithSuggestions] passes to its two fields
    (lines 158-198). *)
Module RowView.
Record t : Type :=
  { index : nat;
    keyInvalid : bool;
    keyError : option string;
    keyDefault : option SelectableValue.t;
    valueInvalid : bool;
    valueError : option string;
    valueDefault : option SelectableValue.t;
    valueOptions : list SelectableValue.t }.
End RowView.







(** The two editors [LabelsField] chooses from (line 291). *)
Inductive Variant : Type :=
  | WithSuggestions (dataSourceName : string)
  | WithoutSuggestions.

(** [LabelsField] (line 291): [dataSourceName] is a string, or [null] or
    [undefined]. *)
Definition LabelsField (dataSourceName : option string) : Variant :=
  match dataSourceName with
  | Some name => if truthy name then WithSuggestions name else WithoutSuggestions
  | None => WithoutSuggestions
  end.

(** The data sources whose rules the mounted editor asks for: the effect
    of [useGetCustomLabels] (lines 34-36) dispatches
    [fetchRulerRulesIfNotFetchedYet(dataSourceName)]. *)
Definition dispatched (v : Variant) : list string :=
  match v with
  | WithSuggestions dataSourceName => [dataSourceName]
  | WithoutSuggestions => []
  end.

(** ** More of what the theorems speak of *)

(** The label pairs the two loops visit, in the order they visit them. *)
Definition rulesEntries (rs : list RulerRuleDTO.t) : Labels :=
  flat_map (λ r, default [] (RulerRuleDTO.labels r)) rs.

Definition allEntries (config : RulerRulesConfigDTO) : Labels :=
  rulesEntries (allRules config).

(** The non-empty values the pairs give for [k], in that order. *)
Definition valuesUnder (k : string) (entries : Labels) : list string :=
  (filter (λ entry, entry.1 = k ∧ entry.2 ≠ "") entries).*2.

(** [s] after [s.add(v)] for each [v] of [vs]. *)
Definition addAll (s : JSSet) (vs : list string) : JSSet :=
  foldl (λ s v, Set_add v s) s vs.

(** * Properties *)

(** ** Sets *)

Lemma Set_add_elem v w (s : JSSet) : w ∈ Set_add v s ↔ w ∈ s ∨ w = v.
Proof.
  unfold Set_add. destruct (decide (v ∈ s)) as [Hin|Hnin].
  - split; [by left|]. intros [?| ->]; done.
  - rewrite elem_of_app, list_elem_of_singleton. done.
Qed.

Lemma Set_add_nonempty v (s : JSSet) : Set_add v s ≠ [].
Proof.
  unfold Set_add. destruct (decide (v ∈ s)) as [Hin|Hnin].
  - intros ->. by apply not_elem_of_nil in Hin.
  - by destruct s.
Qed.

Lemma Set_add_NoDup v (s : JSSet) : NoDup s → NoDup (Set_add v s).
Proof.
  intros Hs. unfold Set_add. destruct (decide (v ∈ s)) as [Hin|Hnin]; [done|].
  apply NoDup_app. split_and!; [done| |apply NoDup_singleton].
  intros w Hw Hw'. apply list_elem_of_singleton in Hw'. by subst.
Qed.

Lemma Set_new_singleton v : Set_new [v] = [v].
Proof. reflexivity. Qed.

(** ** [forEach] *)

Lemma forEach_app {A S} (f : S → A → Completion S) (l1 l2 : list A) (s : S) :
  forEach f (l1 ++ l2) s = bind (forEach f l1 s) (forEach f l2).
Proof.
  revert s. induction l1 as [|x l1 IH]; intros s; simpl; [done|].
  destruct (f s x); simpl; [apply IH|done].
Qed.

(** An invariant of the callback is an invariant of the loop. *)
Lemma forEach_invariant {A S} (f : S → A → Completion S) (P : S → Prop) :
  (∀ s x s', P s → f s x = Normal s' → P s') →
  ∀ l s s', P s → forEach f l s = Normal s' → P s'.
Proof.
  intros Hf l. induction l as [|x l IH]; intros s s' Hs Hrun; simpl in Hrun.
  - by simplify_eq.
  - destruct (f s x) as [s1|] eqn:Hx; simpl in Hrun; [|done]. eauto.
Qed.

(** ** One label pair *)

Lemma truthy_true v : truthy v = true ↔ v ≠ "".
Proof. unfold truthy. by rewrite bool_decide_eq_true. Qed.

Lemma truthy_false v : truthy v = false ↔ v = "".
Proof.
  unfold truthy. rewrite bool_decide_eq_false. split; [|by intros ->; auto].
  intros H. by destruct (decide (v = "")).
Qed.

Lemma Get_Undefined (labelsByKey : LabelsByKey) k :
  Get labelsByKey k = Undefined ↔ labelsByKey !! k = None ∧ ¬ inherited k.
Proof.
  unfold Get, inherited. destruct (labelsByKey !! k); [naive_solver|].
  destruct (assoc k Object_prototype) eqn:E; split; naive_solver.
Qed.

Lemma Get_SetObject (labelsByKey : LabelsByKey) k s :
  Get labelsByKey k = SetObject s ↔ labelsByKey !! k = Some s.
Proof.
  unfold Get. destruct (labelsByKey !! k); [naive_solver|].
  destruct (assoc k Object_prototype); naive_solver.
Qed.

Lemma Get_Inherited (labelsByKey : LabelsByKey) k m :
  Get labelsByKey k = Inherited m ↔
  labelsByKey !! k = None ∧ assoc k Object_prototype = Some m.
Proof.
  unfold Get. destruct (labelsByKey !! k); [naive_solver|].
  destruct (assoc k Object_prototype); naive_solver.
Qed.

(** A pair with an empty value is skipped. *)
Lemma addLabel_empty (labelsByKey : LabelsByKey) k :
  addLabel labelsByKey (k, "") = Normal labelsByKey.
Proof. reflexivity. Qed.

Lemma addLabel_wellFormed (labelsByKey labelsByKey' : LabelsByKey) entry :
  wellFormed labelsByKey → addLabel labelsByKey entry = Normal labelsByKey' →
  wellFormed labelsByKey'.
Proof.
  destruct entry as [k v]. unfold addLabel. intros Hwf Hrun.
  destruct (truthy v) eqn:Hv; simpl in Hrun; [|by simplify_eq].
  destruct (Get labelsByKey k) as [|s|m] eqn:Hget; simplify_eq.
  - apply Get_Undefined in Hget as [Hk Hproto].
    intros k' s'. rewrite lookup_insert. case_decide; [|by apply Hwf].
    intros; simplify_eq. rewrite Set_new_singleton.
    split_and!; [done|apply NoDup_singleton|done].
  - apply Get_SetObject in Hget. destruct (Hwf _ _ Hget) as (?&?&?).
    intros k' s'. rewrite lookup_insert. case_decide; [|by apply Hwf].
    intros; simplify_eq.
    split_and!; [apply Set_add_nonempty|by apply Set_add_NoDup|done].
Qed.

Lemma addLabel_suggests (labelsByKey labelsByKey' : LabelsByKey) k v k' v' :
  addLabel labelsByKey (k, v) = Normal labelsByKey' →
  suggests labelsByKey' k' v' ↔
  suggests labelsByKey k' v' ∨ (k' = k ∧ v' = v ∧ v ≠ "").
Proof.
  unfold addLabel, suggests. intros Hrun.
  destruct (truthy v) eqn:Hv; simpl in Hrun.
  2:{ simplify_eq. apply truthy_false in Hv. naive_solver. }
  apply truthy_true in Hv.
  destruct (Get labelsByKey k) as [|s|m] eqn:Hget; simplify_eq.
  - apply Get_Undefined in Hget as [Hk _]. rewrite Set_new_singleton.
    destruct (decide (k' = k)) as [->|Hne].
    + rewrite lookup_insert_eq, Hk. split.
      * intros (s & ? & Hin); simplify_eq.
        apply list_elem_of_singleton in Hin. naive_solver.
      * intros [(?&?&?)|(_&->&_)]; [done|].
        eexists; split; [done|]. by apply list_elem_of_singleton.
    + rewrite lookup_insert_ne by done. naive_solver.
  - apply Get_SetObject in Hget.
    destruct (decide (k' = k)) as [->|Hne].
    + rewrite lookup_insert_eq, Hget. split.
      * intros (s' & ? & Hin); simplify_eq.
        apply Set_add_elem in Hin. naive_solver.
      * intros [(s' & ? & Hin)|(_&->&_)]; simplify_eq;
          (eexists; split; [done|]); apply Set_add_elem; auto.
    + rewrite lookup_insert_ne by done. naive_solver.
Qed.

(** The callback throws exactly on a non-empty value under a key that is
    not an own key and names a member of [Object.prototype]. *)
Lemma addLabel_throws (labelsByKey : LabelsByKey) k v :
  addLabel labelsByKey (k, v) = ThrowTypeError ↔
  v ≠ "" ∧ labelsByKey !! k = None ∧ inherited k.
Proof.
  unfold addLabel. destruct (truthy v) eqn:Hv; simpl.
  - apply truthy_true in Hv.
    destruct (Get labelsByKey k) as [|s|m] eqn:Hget.
    + apply Get_Undefined in Hget. naive_solver.
    + apply Get_SetObject in Hget. naive_solver.
    + apply Get_Inherited in Hget as [? ?]. unfold inherited. naive_solver.
  - apply truthy_false in Hv. naive_solver.
Qed.

(** ** The loops *)

(** What the loop adds to an observation [obs] is what its callback adds
    for some element. *)
Lemma forEach_accumulates {A S} (f : S → A → Completion S) (obs : S → Prop)
    (adds : A → Prop) :
  (∀ s x s', f s x = Normal s' → (obs s' ↔ obs s ∨ adds x)) →
  ∀ l s s', forEach f l s = Normal s' → (obs s' ↔ obs s ∨ ∃ x, x ∈ l ∧ adds x).
Proof.
  intros Hf l. induction l as [|x l IH]; intros s s' Hrun; simpl in Hrun.
  - simplify_eq. split; [by left|]. intros [?|(x & Hx & _)]; [done|].
    by apply not_elem_of_nil in Hx.
  - destruct (f s x) as [s1|] eqn:Hx; simpl in Hrun; [|done].
    rewrite (IH _ _ Hrun), (Hf _ _ _ Hx). split.
    + intros [[?|?]|(y & ? & ?)]; [by left|right..].
      * exists x. split; [left|done].
      * exists y. split; [by right|done].
    + intros [?|(y & Hy & ?)]; [by left; left|].
      apply elem_of_cons in Hy as [->|?]; [by left; right|].
      right. by exists y.
Qed.

(** The loop throws exactly when its callback throws on some element,
    whenever that depends on the element alone under an invariant [P]. *)
Lemma forEach_throws {A S} (f : S → A → Completion S) (P : S → Prop)
    (bad : A → Prop) :
  (∀ s x s', P s → f s x = Normal s' → P s') →
  (∀ s x, P s → (f s x = ThrowTypeError ↔ bad x)) →
  ∀ l s, P s → (forEach f l s = ThrowTypeError ↔ ∃ x, x ∈ l ∧ bad x).
Proof.
  intros Hinv Hbad l. induction l as [|x l IH]; intros s Hs; simpl.
  - split; [done|]. intros (x & Hx & _). by apply not_elem_of_nil in Hx.
  - destruct (f s x) as [s1|] eqn:Hx; simpl.
    + rewrite (IH s1) by eauto. split.
      * intros (y & ? & ?). exists y. split; [by right|done].
      * intros (y & Hy & Hy'). apply elem_of_cons in Hy as [->|?]; [|by exists y].
        apply (Hbad s) in Hy'; [congruence|done].
    + split; [|done]. intros _. exists x. split; [left|]. by apply (Hbad s).
Qed.

Lemma wellFormed_empty : wellFormed ∅.
Proof. intros k s. by rewrite lookup_empty. Qed.

Lemma wellFormed_own_not_inherited (labelsByKey : LabelsByKey) k :
  wellFormed labelsByKey → inherited k → labelsByKey !! k = None.
Proof.
  intros Hwf Hk. destruct (labelsByKey !! k) as [s|] eqn:E; [|done].
  by destruct (Hwf _ _ E) as (_ & _ & []).
Qed.

Lemma addLabel_throws_wf (labelsByKey : LabelsByKey) entry :
  wellFormed labelsByKey →
  addLabel labelsByKey entry = ThrowTypeError ↔ badEntry entry.
Proof.
  intros Hwf. destruct entry as [k v]. rewrite addLabel_throws. unfold badEntry; simpl.
  split; [naive_solver|]. intros [? ?].
  split_and!; [done| |done]. by apply wellFormed_own_not_inherited.
Qed.

Lemma addRule_wellFormed (labelsByKey labelsByKey' : LabelsByKey) r :
  wellFormed labelsByKey → addRule labelsByKey r = Normal labelsByKey' →
  wellFormed labelsByKey'.
Proof.
  unfold addRule. destruct (RulerRuleDTO.labels r) as [entries|].
  - apply forEach_invariant. intros s x s'. apply addLabel_wellFormed.
  - intros ? ?. by simplify_eq.
Qed.

Lemma addRule_throws_wf (labelsByKey : LabelsByKey) r :
  wellFormed labelsByKey →
  addRule labelsByKey r = ThrowTypeError ↔ badRule r.
Proof.
  intros Hwf. unfold addRule, badRule.
  destruct (RulerRuleDTO.labels r) as [entries|].
  - rewrite (forEach_throws addLabel wellFormed badEntry);
      [naive_solver| |by intros; apply addLabel_throws_wf|done].
    intros s x s'. apply addLabel_wellFormed.
  - naive_solver.
Qed.

Lemma addRule_suggests (labelsByKey labelsByKey' : LabelsByKey) r k v :
  addRule labelsByKey r = Normal labelsByKey' →
  suggests labelsByKey' k v ↔
  suggests labelsByKey k v ∨
  (∃ entries, RulerRuleDTO.labels r = Some entries ∧ (k, v) ∈ entries) ∧ v ≠ "".
Proof.
  unfold addRule. destruct (RulerRuleDTO.labels r) as [entries|].
  - intros Hrun.
    assert (∀ s x s', addLabel s x = Normal s' →
              suggests s' k v ↔ suggests s k v ∨ (x = (k, v) ∧ v ≠ "")) as Hf.
    { intros s [k0 v0] s' Hx. rewrite (addLabel_suggests _ _ _ _ _ _ Hx).
      naive_solver. }
    rewrite (forEach_accumulates addLabel (λ s, suggests s k v) _ Hf _ _ _ Hrun).
    split; intros [?|H]; auto; right.
    + destruct H as (x & ? & -> & ?). eauto.
    + destruct H as [(es & ? & ?) ?]. simplify_eq. eauto.
  - intros ?. simplify_eq. naive_solver.
Qed.

Lemma allRules_carry (config : RulerRulesConfigDTO) k v :
  rulesCarry (allRules config) k v ↔ carries config k v.
Proof.
  unfold rulesCarry, carries, allRules. split.
  - intros (r & entries & Hr & ? & ?).
    apply list_elem_of_In, in_flat_map in Hr as (group & Hg & Hr).
    apply in_flat_map in Hg as ([ns groups] & Hns & Hg). simpl in Hg.
    apply (proj2 (list_elem_of_In _ _)) in Hns, Hg, Hr.
    by exists ns, groups, group, r, entries.
  - intros (ns & groups & group & r & entries & Hns & Hg & Hr & ? & ?).
    exists r, entries. split_and!; [|done..].
    apply list_elem_of_In, in_flat_map. exists group.
    split; [|by apply list_elem_of_In].
    apply in_flat_map. exists (ns, groups). by rewrite <- !list_elem_of_In.
Qed.

Lemma rules_wellFormed rs (labelsByKey labelsByKey' : LabelsByKey) :
  wellFormed labelsByKey → forEach addRule rs labelsByKey = Normal labelsByKey' →
  wellFormed labelsByKey'.
Proof. apply forEach_invariant. intros s x s'. apply addRule_wellFormed. Qed.

Lemma rules_suggest rs (labelsByKey labelsByKey' : LabelsByKey) k v :
  forEach addRule rs labelsByKey = Normal labelsByKey' →
  suggests labelsByKey' k v ↔
  suggests labelsByKey k v ∨ (rulesCarry rs k v ∧ v ≠ "").
Proof.
  intros Hrun.
  rewrite (forEach_accumulates addRule (λ s, suggests s k v) _
             (λ s r s', addRule_suggests s s' r k v) _ _ _ Hrun).
  unfold rulesCarry. naive_solver.
Qed.

Lemma rules_throw rs (labelsByKey : LabelsByKey) :
  wellFormed labelsByKey →
  forEach addRule rs labelsByKey = ThrowTypeError ↔
  ∃ k v, rulesCarry rs k v ∧ v ≠ "" ∧ inherited k.
Proof.
  intros Hwf.
  rewrite (forEach_throws addRule wellFormed badRule);
    [|by intros s x s'; apply addRule_wellFormed
     |by intros; apply addRule_throws_wf|done].
  unfold badRule, badEntry, rulesCarry. split.
  - intros (r & ? & entries & [k v] & ? & ? & ? & ?). exists k, v. naive_solver.
  - intros (k & v & (r & entries & ? & ? & ?) & ? & ?).
    exists r. split; [done|]. exists entries, (k, v). naive_solver.
Qed.

(** ** [buildSuggestionIndex] *)

Lemma buildSuggestionIndex_wellFormed config (labelsByKey : LabelsByKey) :
  buildSuggestionIndex config = Normal labelsByKey → wellFormed labelsByKey.
Proof.
  destruct config as [config|]; simpl.
  - apply rules_wellFormed, wellFormed_empty.
  - intros ?. simplify_eq. apply wellFormed_empty.
Qed.

Lemma suggests_empty k v : ¬ suggests ∅ k v.
Proof. intros (s & Hs & _). by rewrite lookup_empty in Hs. Qed.

(** When the builder returns an index, the index suggests [v] for [k]
    exactly when some rule of the configuration carries [(k, v)] and [v]
    is not empty. *)
Lemma buildSuggestionIndex_suggests (config : RulerRulesConfigDTO)
    (labelsByKey : LabelsByKey) (k v : string) :
  buildSuggestionIndex (Some config) = Normal labelsByKey →
  suggests labelsByKey k v ↔ carries config k v ∧ v ≠ "".
Proof.
  simpl. intros Hrun. rewrite (rules_suggest _ _ _ _ _ Hrun), allRules_carry.
  split; [|by right]. intros [H|?]; [|done]. by apply suggests_empty in H.
Qed.

(** X2. The builder throws exactly when some rule carries a non-empty
    value under a key that names a member of [Object.prototype]. *)
Theorem buildSuggestionIndex_throws (config : RulerRulesConfigDTO) :
  buildSuggestionIndex (Some config) = ThrowTypeError ↔
  ∃ k v, carries config k v ∧ v ≠ "" ∧ inherited k.
Proof.
  simpl. rewrite rules_throw by apply wellFormed_empty.
  by setoid_rewrite allRules_carry.
Qed.

(** X1. On a configuration none of whose non-empty labels is named like
    a member of [Object.prototype], the builder returns an index, and the
    index holds under each key the distinct non-empty values the rules
    carry for it. *)
Theorem buildSuggestionIndex_aggregates (config : RulerRulesConfigDTO) :
  (∀ k v, carries config k v → v ≠ "" → ¬ inherited k) →
  ∃ labelsByKey,
    buildSuggestionIndex (Some config) = Normal labelsByKey ∧
    (∀ k v, suggests labelsByKey k v ↔ carries config k v ∧ v ≠ "") ∧
    (∀ k s, labelsByKey !! k = Some s → NoDup s).
Proof.
  intros Hok.
  destruct (buildSuggestionIndex (Some config)) as [labelsByKey|] eqn:Hrun.
  - exists labelsByKey. split_and!; [done| |].
    + intros k v. by apply buildSuggestionIndex_suggests.
    + intros k s Hs. by destruct (buildSuggestionIndex_wellFormed _ _ Hrun _ _ Hs) as (_&?&_).
  - simpl in Hrun. apply rules_throw in Hrun as (k & v & Hkv & ? & ?);
      [|apply wellFormed_empty].
    apply allRules_carry in Hkv. by destruct (Hok k v).
Qed.

Lemma buildSuggestionIndex_aggregates_witness :
  ∃ labelsByKey,
    buildSuggestionIndex (Some sevConfig) = Normal labelsByKey ∧
    (∀ k v, suggests labelsByKey k v ↔ carries sevConfig k v ∧ v ≠ "") ∧
    (∀ k s, labelsByKey !! k = Some s → NoDup s).
Proof.
  apply (buildSuggestionIndex_aggregates sevConfig).
  intros k v (ns & groups & group & r & entries & Hns & Hg & Hr & Hl & Hkv) _.
  unfold sevConfig, namespace in Hns.
  apply list_elem_of_singleton in Hns. simplify_eq.
  apply list_elem_of_singleton in Hg. subst group. simpl in Hr.
  assert (k = "sev") as ->.
  { repeat (apply elem_of_cons in Hr as [->|Hr]; simpl in Hl; simplify_eq;
            [by apply list_elem_of_singleton in Hkv; simplify_eq|]).
    by apply not_elem_of_nil in Hr. }
  intros [m Hm]. vm_compute in Hm. discriminate.
Defined.

(** X3. The example of the specification: three rules with the values
    ["high"], ["low"] and [""] under ["sev"] give [{ sev: {"high", "low"} }]. *)
Theorem buildSuggestionIndex_sev :
  buildSuggestionIndex (Some sevConfig) = Normal {[ "sev" := ["high"; "low"] ]}.
Proof. vm_compute. reflexivity. Qed.

(** C1. The builder is claimed to map, for every configuration, each key
    to the non-empty values the rules carry for it.  On the configuration
    [{ ns: [{ rules: [{labels:{constructor:"x"}}] }] }], whose one rule
    carries [("constructor", "x")], it returns no index: [labelsByKey["constructor"]]
    is the inherited [Object], which is truthy and has no [add], so the
    call at line 62 throws. *)
Theorem buildSuggestionIndex_constructor_label :
  carries constructorConfig "constructor" "x" ∧
  Get ∅ "constructor" = Inherited (BuiltinFunction 1) ∧
  buildSuggestionIndex (Some constructorConfig) = ThrowTypeError.
Proof.
  split_and!; [|reflexivity..].
  exists "ns", [ {| RulerRuleGroupDTO.rules := [ rule [("constructor", "x")] ] |} ],
    {| RulerRuleGroupDTO.rules := [ rule [("constructor", "x")] ] |},
    (rule [("constructor", "x")]), [("constructor", "x")].
  split_and!; try done; apply list_elem_of_singleton; done.
Qed.

(** C2. Whatever the configuration, an index the builder produces has no
    key whose set of values is empty. *)
Theorem buildSuggestionIndex_no_empty_set (config : option RulerRulesConfigDTO)
    (labelsByKey : LabelsByKey) (k : string) (s : JSSet) :
  buildSuggestionIndex config = Normal labelsByKey →
  labelsByKey !! k = Some s →
  s ≠ [].
Proof.
  intros Hrun Hs. by destruct (buildSuggestionIndex_wellFormed _ _ Hrun _ _ Hs).
Qed.

Lemma buildSuggestionIndex_no_empty_set_witness :
  buildSuggestionIndex (Some sevConfig) = Normal {[ "sev" := ["high"; "low"] ]} ∧
  ({[ "sev" := ["high"; "low"] ]} : LabelsByKey) !! "sev" = Some ["high"; "low"] ∧
  ["high"; "low"] ≠ [].
Proof.
  assert (buildSuggestionIndex (Some sevConfig) = Normal {[ "sev" := ["high"; "low"] ]})
    as Hrun by (vm_compute; reflexivity).
  assert (({[ "sev" := ["high"; "low"] ]} : LabelsByKey) !! "sev" = Some ["high"; "low"])
    as Hs by (vm_compute; reflexivity).
  split_and!; [exact Hrun|exact Hs|].
  exact (buildSuggestionIndex_no_empty_set (Some sevConfig) _ "sev" _ Hrun Hs).
Defined.

(** C6. Without a configuration ([undefined]) and on a configuration
    without namespaces ([{}]) the builder returns the empty index; so does
    the hook while there is no request, or a request without a result. *)
Theorem buildSuggestionIndex_absent_config :
  buildSuggestionIndex None = Normal ∅ ∧
  buildSuggestionIndex (Some []) = Normal ∅ ∧
  labelsByKeyResult None = Normal ∅ ∧
  (∀ loading, labelsByKeyResult
     (Some {| AsyncRequestState.loading := loading; AsyncRequestState.result := None |})
     = Normal ∅).
Proof. by split_and!. Qed.

(** A rule without [labels] leaves the index as it is. *)
Lemma addRule_missing_labels (labelsByKey : LabelsByKey) (r : RulerRuleDTO.t) :
  RulerRuleDTO.labels r = None → addRule labelsByKey r = Normal labelsByKey.
Proof. unfold addRule. by intros ->. Qed.

(** X4. A rule without [labels] can be dropped from the rules without
    changing what the loop computes, result or exception. *)
Theorem forEach_addRule_missing_labels (before after : list RulerRuleDTO.t)
    (r : RulerRuleDTO.t) (labelsByKey : LabelsByKey) :
  RulerRuleDTO.labels r = None →
  forEach addRule (before ++ r :: after) labelsByKey =
  forEach addRule (before ++ after) labelsByKey.
Proof.
  intros Hr. rewrite !forEach_app. destruct (forEach addRule before labelsByKey); simpl; [|done].
  by rewrite addRule_missing_labels.
Qed.

Lemma forEach_addRule_missing_labels_witness :
  forEach addRule ([rule [("sev", "high")]] ++ ruleWithoutLabels :: [rule [("sev", "low")]]) ∅ =
  forEach addRule ([rule [("sev", "high")]] ++ [rule [("sev", "low")]]) ∅.
Proof.
  by apply (forEach_addRule_missing_labels [rule [("sev", "high")]] [rule [("sev", "low")]]
              ruleWithoutLabels ∅).
Defined.

(** C7. The builder is claimed to have no error condition on a
    configuration with a rule whose [labels] are missing.  On
    [{ ns: [{ rules: [{}, {labels:{constructor:"x"}}] }] }] the rule without
    labels is passed over, and the builder then throws on the label of the
    second rule. *)
Theorem buildSuggestionIndex_missing_labels_throws :
  ruleWithoutLabels ∈ allRules missingLabelsConfig ∧
  addRule ∅ ruleWithoutLabels = Normal ∅ ∧
  buildSuggestionIndex (Some missingLabelsConfig) = ThrowTypeError.
Proof. split_and!; [left|reflexivity..]. Qed.

(** ** The memoised result *)

Lemma renderHook_consistent seen rulerRequest cell :
  cellConsistent seen cell →
  cellConsistent (seen ++ [rulerRequest]) (renderHook rulerRequest cell).2.
Proof.
  intros Hcell. unfold renderHook, useMemo.
  assert (cellConsistent (seen ++ [rulerRequest]) cell) as Hkeep.
  { intros identity v Hv. destruct (Hcell _ _ Hv) as (dep & ? & ? & ?).
    exists dep. split; [apply elem_of_app; by left|done]. }
  assert (∀ v, labelsByKeyResult (contentOf rulerRequest) = Normal v →
               cellConsistent (seen ++ [rulerRequest])
                 (Some (identityOf rulerRequest, v))) as Hnew.
  { intros v Hv identity v' ?. simplify_eq. exists rulerRequest.
    split; [|done]. apply elem_of_app. right. by apply list_elem_of_singleton. }
  destruct cell as [[identity v]|].
  - destruct (decide (identity = identityOf rulerRequest)); simpl; [done|].
    destruct (labelsByKeyResult (contentOf rulerRequest)) eqn:Hrun; simpl; auto.
  - destruct (labelsByKeyResult (contentOf rulerRequest)) eqn:Hrun; simpl; auto.
Qed.

Lemma cellAfter_consistent history : cellConsistent history (cellAfter history).
Proof.
  unfold cellAfter.
  assert (∀ rest seen cell, cellConsistent seen cell →
            cellConsistent (seen ++ rest)
              (foldl (λ cell rulerRequest, (renderHook rulerRequest cell).2) cell rest))
    as Hgen.
  { induction rest as [|r rest IH]; intros seen cell Hcell; simpl.
    - by rewrite app_nil_r.
    - rewrite (cons_middle r seen rest), (assoc_L (++) seen [r] rest).
      apply IH. by apply renderHook_consistent. }
  apply (Hgen history [] None). by intros identity v ?.
Qed.

(** In a store that changes no object in place, a render returns what the
    callback computes from what the request holds now. *)
Lemma renderHook_result seen rulerRequest cell :
  cellConsistent seen cell → immutable (seen ++ [rulerRequest]) →
  (renderHook rulerRequest cell).1 = labelsByKeyResult (contentOf rulerRequest).
Proof.
  intros Hcell Himm. unfold renderHook, useMemo.
  destruct cell as [[identity v]|].
  - destruct (decide (identity = identityOf rulerRequest)) as [Hid|]; simpl.
    + destruct (Hcell _ _ eq_refl) as (dep & Hdep & Hdep' & Hv).
      rewrite <- Hv. f_equal. apply Himm.
      * apply elem_of_app. by left.
      * apply elem_of_app. right. by apply list_elem_of_singleton.
      * congruence.
    + by destruct (labelsByKeyResult (contentOf rulerRequest)).
  - by destruct (labelsByKeyResult (contentOf rulerRequest)).
Qed.

(** C8. In a store that changes no object in place, a render of the hook
    returns, whatever it rendered before, what the builder computes from
    the configuration the request holds: an index that suggests [v] for
    [k] exactly when the configuration carries [(k, v)] with [v] not
    empty.  Two renders of requests that hold the same configuration,
    after any two histories and whatever the objects and their [loading]
    flags, return the same outcome, hence indexes with the same keys and
    the same sets. *)
Theorem renderHook_deterministic
    (history history' : list (Reference AsyncRequestState.t))
    (identity identity' : nat) (loading loading' : bool)
    (config : option RulerRulesConfigDTO) :
  let rulerRequest :=
    Some (identity,
          {| AsyncRequestState.loading := loading; AsyncRequestState.result := config |}) in
  let rulerRequest' :=
    Some (identity',
          {| AsyncRequestState.loading := loading'; AsyncRequestState.result := config |}) in
  immutable (history ++ [rulerRequest]) →
  immutable (history' ++ [rulerRequest']) →
  (renderHook rulerRequest (cellAfter history)).1 = buildSuggestionIndex config ∧
  (renderHook rulerRequest' (cellAfter history')).1 =
  (renderHook rulerRequest (cellAfter history)).1 ∧
  ∀ labelsByKey,
    (renderHook rulerRequest (cellAfter history)).1 = Normal labelsByKey →
    ∀ k v, suggests labelsByKey k v ↔
           ∃ rulerRulesConfig,
             config = Some rulerRulesConfig ∧ carries rulerRulesConfig k v ∧ v ≠ "".
Proof.
  intros rulerRequest rulerRequest' Himm Himm'.
  rewrite (renderHook_result _ _ _ (cellAfter_consistent history) Himm).
  rewrite (renderHook_result _ _ _ (cellAfter_consistent history') Himm').
  split_and!; [done..|]. simpl. unfold labelsByKeyResult; simpl.
  intros labelsByKey Hrun k v. destruct config as [rulerRulesConfig|].
  - rewrite (buildSuggestionIndex_suggests _ _ _ _ Hrun). naive_solver.
  - simpl in Hrun. simplify_eq. split; [|naive_solver].
    intros H. by apply suggests_empty in H.
Qed.

Lemma renderHook_deterministic_witness :
  let request := {| AsyncRequestState.loading := false;
                    AsyncRequestState.result := Some sevConfig |} in
  let reloading := {| AsyncRequestState.loading := true;
                      AsyncRequestState.result := Some sevConfig |} in
  (renderHook (Some (1, request)) (cellAfter [None; Some (1, request)])).1
    = buildSuggestionIndex (Some sevConfig) ∧
  (renderHook (Some (2, reloading)) (cellAfter [None])).1
    = (renderHook (Some (1, request)) (cellAfter [None; Some (1, request)])).1 ∧
  ∀ labelsByKey,
    (renderHook (Some (1, request)) (cellAfter [None; Some (1, request)])).1
      = Normal labelsByKey →
    ∀ k v, suggests labelsByKey k v ↔
           ∃ rulerRulesConfig,
             Some sevConfig = Some rulerRulesConfig ∧ carries rulerRulesConfig k v ∧ v ≠ "".
Proof.
  intros request reloading.
  apply (renderHook_deterministic [None; Some (1, request)] [None] 1 2 false true
           (Some sevConfig)).
  - intros dep dep' Hdep Hdep' Hid. set_unfold. naive_solver.
  - intros dep dep' Hdep Hdep' Hid. set_unfold. naive_solver.
Defined.

(** A render that finds the same object in the cell does not run the
    builder again, also when the object holds something else by then; one
    that finds another object replaces the cell. *)
Example renderHook_reuses_and_rebuilds :
  let request := {| AsyncRequestState.loading := false;
                    AsyncRequestState.result := Some sevConfig |} in
  let changed := {| AsyncRequestState.loading := false;
                    AsyncRequestState.result := Some [] |} in
  let index : LabelsByKey := {[ "sev" := ["high"; "low"] ]} in
  cellAfter [None; Some (1, request)] = Some (Some 1, index) ∧
  renderHook (Some (1, request)) (cellAfter [None; Some (1, request)])
    = (Normal index, Some (Some 1, index)) ∧
  renderHook (Some (1, changed)) (cellAfter [None; Some (1, request)])
    = (Normal index, Some (Some 1, index)) ∧
  renderHook (Some (2, changed)) (cellAfter [None; Some (1, request)])
    = (Normal ∅, Some (Some 2, ∅)) ∧
  renderHook None (cellAfter [None; Some (1, request)]) = (Normal ∅, Some (None, ∅)).
Proof. vm_compute. done. Qed.

(** ** [getValuesForLabel] *)

(** The options of a set carry its elements, in its order. *)
Lemma mapLabelsToOptions_SetObject (s : JSSet) :
  SelectableValue.value <$> mapLabelsToOptions (SetObject s) = Some <$> s ∧
  SelectableValue.label <$> mapLabelsToOptions (SetObject s) = Some <$> s.
Proof.
  simpl. split; induction s as [|x s IH]; simpl; by f_equal.
Qed.

(** X5. For a key of the index the options are the values of its set, in
    the set's order. *)
Theorem getValuesForLabel_own (labelsByKey : LabelsByKey) (key : string) (s : JSSet) :
  labelsByKey !! key = Some s →
  SelectableValue.value <$> getValuesForLabel labelsByKey key = Some <$> s ∧
  (∀ v, Some v ∈ (SelectableValue.value <$> getValuesForLabel labelsByKey key) ↔ v ∈ s).
Proof.
  intros Hs. unfold getValuesForLabel. apply Get_SetObject in Hs. rewrite Hs.
  destruct (mapLabelsToOptions_SetObject s) as [-> _]. split; [done|].
  intros v. rewrite list_elem_of_fmap. naive_solver.
Qed.

Lemma getValuesForLabel_own_witness :
  SelectableValue.value <$> getValuesForLabel {[ "sev" := ["high"; "low"] ]} "sev"
    = Some <$> ["high"; "low"] ∧
  (∀ v, Some v ∈ (SelectableValue.value <$>
                    getValuesForLabel {[ "sev" := ["high"; "low"] ]} "sev")
        ↔ v ∈ ["high"; "low"]).
Proof.
  apply (getValuesForLabel_own {[ "sev" := ["high"; "low"] ]} "sev" ["high"; "low"]).
  vm_compute. reflexivity.
Defined.

(** X6. For a key that is neither in the index nor a member of
    [Object.prototype] there are no options. *)
Theorem getValuesForLabel_unknown (labelsByKey : LabelsByKey) (key : string) :
  labelsByKey !! key = None → ¬ inherited key →
  getValuesForLabel labelsByKey key = [].
Proof.
  intros Hk Hproto. unfold getValuesForLabel.
  by rewrite (proj2 (Get_Undefined labelsByKey key) (conj Hk Hproto)).
Qed.

Lemma getValuesForLabel_unknown_witness :
  getValuesForLabel {[ "sev" := ["high"; "low"] ]} "team" = [].
Proof.
  apply (getValuesForLabel_unknown {[ "sev" := ["high"; "low"] ]} "team").
  - vm_compute. reflexivity.
  - intros [m Hm]. vm_compute in Hm. discriminate.
Defined.

(** C9. The options for a key that is not in the index are claimed to be
    empty.  For the key ["constructor"] and the empty index,
    [labelsByKey["constructor"]] is the inherited function [Object], which
    [Array.from] reads as an array-like of length 1: there is one option,
    whose label and value are [undefined]. *)
Theorem getValuesForLabel_constructor :
  (∅ : LabelsByKey) !! "constructor" = None ∧
  getValuesForLabel ∅ "constructor" =
    [ {| SelectableValue.label := None; SelectableValue.value := None |} ].
Proof. split; reflexivity. Qed.

(** ** Validation *)

(** C3. The key of the entry at [index] is reported, with the message
    "Required.", exactly when it is empty and the entry's value is not;
    the value is reported exactly when it is empty and the key is not.  An
    entry whose two fields are empty passes both checks, and the rules of
    the editor without suggestions decide alike. *)
Theorem validate_required (ls : list LabelEntry.t) (index : nat) :
  (validateKey ls index = Some "Required." ↔
   ∃ e, ls !! index = Some e ∧ LabelEntry.key e = "" ∧ LabelEntry.value e ≠ "") ∧
  (validateValue ls index = Some "Required." ↔
   ∃ e, ls !! index = Some e ∧ LabelEntry.value e = "" ∧ LabelEntry.key e ≠ "") ∧
  (validateKey ls index = None ∨ validateKey ls index = Some "Required.") ∧
  (validateValue ls index = None ∨ validateValue ls index = Some "Required.") ∧
  (ls !! index = Some {| LabelEntry.key := ""; LabelEntry.value := "" |} →
   validateKey ls index = None ∧ validateValue ls index = None) ∧
  validateKeyPlain ls index = validateKey ls index ∧
  validateValuePlain ls index = validateValue ls index.
Proof.
  unfold validateKeyPlain, validateValuePlain, keyRequiredPlain, valueRequiredPlain.
  rewrite !negb_involutive.
  unfold validateKey, validateValue, keyRequired, valueRequired.
  unfold applyRequired. destruct (ls !! index) as [[k v]|]; simpl.
  - destruct (truthy k) eqn:Hk; [apply truthy_true in Hk|apply truthy_false in Hk];
      (destruct (truthy v) eqn:Hv; [apply truthy_true in Hv|apply truthy_false in Hv]);
      simpl; split_and!; naive_solver.
  - split_and!; naive_solver.
Qed.

Lemma validate_required_witness :
  let ls := [ {| LabelEntry.key := ""; LabelEntry.value := "prod" |};
              {| LabelEntry.key := "team"; LabelEntry.value := "" |};
              {| LabelEntry.key := ""; LabelEntry.value := "" |} ] in
  validateKey ls 0 = Some "Required." ∧ validateValue ls 0 = None ∧
  validateKey ls 1 = None ∧ validateValue ls 1 = Some "Required." ∧
  validateKey ls 2 = None ∧ validateValue ls 2 = None ∧
  validateKey ls 3 = None ∧ validateValue ls 3 = None.
Proof.
  intros ls.
  destruct (validate_required ls 2) as (_ & _ & _ & _ & Hboth & _).
  destruct (Hboth eq_refl) as [Hk Hv].
  split_and!; [reflexivity..|exact Hk|exact Hv|reflexivity|reflexivity].
Defined.

(** ** The event handlers *)

Lemma setValue_key_lookup (ls : list LabelEntry.t) (index j : nat) (newKey : string) :
  setValue_key index newKey ls !! j =
  if decide (j = index)
  then (λ e, {| LabelEntry.key := newKey; LabelEntry.value := LabelEntry.value e |})
         <$> ls !! j
  else ls !! j.
Proof.
  unfold setValue_key. case_decide as Hj.
  - subst. apply list_lookup_alter_eq.
  - by apply list_lookup_alter_ne.
Qed.

Lemma setValue_value_lookup (ls : list LabelEntry.t) (index j : nat) (newValue : string) :
  setValue_value index newValue ls !! j =
  if decide (j = index)
  then (λ e, {| LabelEntry.key := LabelEntry.key e; LabelEntry.value := newValue |})
         <$> ls !! j
  else ls !! j.
Proof.
  unfold setValue_value. case_decide as Hj.
  - subst. apply list_lookup_alter_eq.
  - by apply list_lookup_alter_ne.
Qed.

Lemma values_selected (labelsByKey : LabelsByKey) (s : State) (set : JSSet) :
  labelsByKey !! selectedKey s = Some set →
  SelectableValue.value <$> values labelsByKey s = Some <$> set ∧
  SelectableValue.label <$> values labelsByKey s = Some <$> set.
Proof.
  intros Hset. unfold values, getValuesForLabel.
  rewrite (proj2 (Get_SetObject _ _ _) Hset). apply mapLabelsToOptions_SetObject.
Qed.

(** C4. Opening the value suggestions of the entry at [index] selects the
    key that entry has at that moment, and the value options are then those
    of that key: one option per value of the set the index holds under the
    key, in the set's order, with that value as label and as value.  The
    key is the one just given to the entry by [setEntryKey], and not a key
    given since to another entry. *)
Theorem onOpenValueSuggestions_selects (labelsByKey : LabelsByKey) (s : State)
    (index : nat) (entry : LabelEntry.t) :
  labels s !! index = Some entry →
  (∃ s', onOpenValueSuggestions index s = Normal s' ∧
         selectedKey s' = LabelEntry.key entry ∧
         labels s' = labels s ∧
         values labelsByKey s' = getValuesForLabel labelsByKey (LabelEntry.key entry) ∧
         ∀ set, labelsByKey !! LabelEntry.key entry = Some set →
                SelectableValue.value <$> values labelsByKey s' = Some <$> set ∧
                SelectableValue.label <$> values labelsByKey s' = Some <$> set) ∧
  (∀ newKey, ∃ s',
     onOpenValueSuggestions index (setEntryKey index newKey s) = Normal s' ∧
     selectedKey s' = newKey ∧
     values labelsByKey s' = getValuesForLabel labelsByKey newKey ∧
     ∀ set, labelsByKey !! newKey = Some set →
            SelectableValue.value <$> values labelsByKey s' = Some <$> set ∧
            SelectableValue.label <$> values labelsByKey s' = Some <$> set) ∧
  (∀ other otherKey, other ≠ index → ∃ s',
     onOpenValueSuggestions index (setEntryKey other otherKey s) = Normal s' ∧
     selectedKey s' = LabelEntry.key entry ∧
     values labelsByKey s' = getValuesForLabel labelsByKey (LabelEntry.key entry) ∧
     ∀ set, labelsByKey !! LabelEntry.key entry = Some set →
            SelectableValue.value <$> values labelsByKey s' = Some <$> set ∧
            SelectableValue.label <$> values labelsByKey s' = Some <$> set).
Proof.
  intros Hentry. split_and!.
  - unfold onOpenValueSuggestions. rewrite Hentry. eexists.
    split_and!; [done..|]. intros set Hset. by apply values_selected.
  - intros newKey. unfold onOpenValueSuggestions, setEntryKey; simpl.
    rewrite setValue_key_lookup, decide_True, Hentry by done. eexists.
    split_and!; [done..|]. intros set Hset. by apply values_selected.
  - intros other otherKey Hne. unfold onOpenValueSuggestions, setEntryKey; simpl.
    rewrite setValue_key_lookup, decide_False, Hentry by done. eexists.
    split_and!; [done..|]. intros set Hset. by apply values_selected.
Qed.

Lemma onOpenValueSuggestions_selects_witness :
  let index : LabelsByKey := {[ "team" := ["core"; "infra"] ]} in
  let entry := {| LabelEntry.key := "team"; LabelEntry.value := "" |} in
  let s := {| labels := [ entry; {| LabelEntry.key := "sev"; LabelEntry.value := "high" |} ];
              selectedKey := "sev" |} in
  labels s !! 0 = Some entry ∧
  (∃ s', onOpenValueSuggestions 0 s = Normal s' ∧
         selectedKey s' = "team" ∧
         labels s' = labels s ∧
         SelectableValue.value <$> values index s' = [Some "core"; Some "infra"] ∧
         SelectableValue.label <$> values index s' = [Some "core"; Some "infra"]).
Proof.
  intros index entry s. split; [reflexivity|].
  destruct (proj1 (onOpenValueSuggestions_selects index s 0 entry eq_refl))
    as (s' & Hopen & Hkey & Hlabels & _ & Hset).
  assert (index !! LabelEntry.key entry = Some ["core"; "infra"]) as Hteam
    by (vm_compute; reflexivity).
  destruct (Hset _ Hteam) as [Hvalues Hlabel].
  exists s'. split_and!; [exact Hopen|exact Hkey|exact Hlabels|exact Hvalues|exact Hlabel].
Defined.

(** The example of the specification: [setEntryKey(0, "team")], then
    [onOpenValueSuggestions(0)]. *)
Example team_suggestions :
  let index : LabelsByKey := {[ "team" := ["core"; "infra"]; "sev" := ["high"] ]} in
  let s := {| labels := [ {| LabelEntry.key := ""; LabelEntry.value := "" |} ];
              selectedKey := "" |} in
  ∃ s', onOpenValueSuggestions 0 (setEntryKey 0 "team" s) = Normal s' ∧
        selectedKey s' = "team" ∧
        SelectableValue.value <$> values index s' = [Some "core"; Some "infra"].
Proof. eexists. split_and!; reflexivity. Qed.

(** C5. [setEntryKey] gives the entry at [index] the new key, keeps its
    value and every other entry, and selects the new key, so that the
    value options are at once those of the new key. *)
Theorem setEntryKey_replaces (labelsByKey : LabelsByKey) (s : State)
    (index : nat) (newKey : string) :
  let s' := setEntryKey index newKey s in
  selectedKey s' = newKey ∧
  values labelsByKey s' = getValuesForLabel labelsByKey newKey ∧
  length (labels s') = length (labels s) ∧
  ∀ j, labels s' !! j =
       if decide (j = index)
       then (λ e, {| LabelEntry.key := newKey; LabelEntry.value := LabelEntry.value e |})
              <$> labels s !! j
       else labels s !! j.
Proof.
  simpl. split_and!; [done|done| |].
  - unfold setValue_key. apply length_alter.
  - intros j. apply setValue_key_lookup.
Qed.

(** C10. [setEntryValue] gives the entry at [index] the new value and
    leaves the selected key, the keys of all entries and every other entry
    as they were; and every event other than [setEntryKey] and
    [onOpenValueSuggestions] is handled without changing the selected
    key. *)
Theorem setEntryValue_frame (s : State) (index : nat) (newValue : string) :
  let s' := setEntryValue index newValue s in
  selectedKey s' = selectedKey s ∧
  length (labels s') = length (labels s) ∧
  (∀ j, LabelEntry.key <$> labels s' !! j = LabelEntry.key <$> labels s !! j) ∧
  (∀ j, labels s' !! j =
        if decide (j = index)
        then (λ e, {| LabelEntry.key := LabelEntry.key e; LabelEntry.value := newValue |})
               <$> labels s !! j
        else labels s !! j) ∧
  (∀ ev s0,
     match ev with
     | SetEntryKey _ _ | OpenValueSuggestions _ => True
     | _ => ∃ s1, handle ev s0 = Normal s1 ∧ selectedKey s1 = selectedKey s0
     end).
Proof.
  simpl. split_and!; [done| | | |].
  - unfold setValue_value. apply length_alter.
  - intros j. rewrite setValue_value_lookup. case_decide; [|done].
    by destruct (labels s !! j).
  - intros j. apply setValue_value_lookup.
  - intros [] s0; simpl; try done; by eexists.
Qed.

(** The two other events do change the selected key. *)
Example selectedKey_changes :
  let s := {| labels := [ {| LabelEntry.key := "team"; LabelEntry.value := "" |} ];
              selectedKey := "" |} in
  selectedKey (setEntryKey 0 "sev" s) = "sev" ∧
  onOpenValueSuggestions 0 s = Normal {| labels := labels s; selectedKey := "team" |}.
Proof. split; reflexivity. Qed.

(** ** The index, value by value *)

Lemma forEach_cons {A S} (f : S → A → Completion S) (x : A) (l : list A) (s : S) :
  forEach f (x :: l) s = bind (f s x) (forEach f l).
Proof. reflexivity. Qed.

Lemma forEach_addRule_flat (rs : list RulerRuleDTO.t) (labelsByKey : LabelsByKey) :
  forEach addRule rs labelsByKey = forEach addLabel (rulesEntries rs) labelsByKey.
Proof.
  revert labelsByKey. induction rs as [|r rs IH]; intros labelsByKey; simpl; [done|].
  rewrite forEach_app. unfold addRule at 1.
  destruct (RulerRuleDTO.labels r) as [entries|]; simpl; [|apply IH].
  destruct (forEach addLabel entries labelsByKey); simpl; [apply IH|done].
Qed.

Lemma addAll_snoc (s : JSSet) vs v : addAll s (vs ++ [v]) = Set_add v (addAll s vs).
Proof. unfold addAll. by rewrite foldl_app. Qed.

Lemma Set_add_prefix v (s : JSSet) : s `prefix_of` Set_add v s.
Proof.
  unfold Set_add. destruct (decide (v ∈ s)); [done|]. by apply prefix_app_r.
Qed.

Lemma addAll_prefix (s : JSSet) vs : s `prefix_of` addAll s vs.
Proof.
  revert s. induction vs as [|v vs IH]; intros s; simpl; [done|].
  etrans; [apply (Set_add_prefix v)|apply IH].
Qed.

Lemma valuesUnder_cons k k0 v0 entries :
  valuesUnder k ((k0, v0) :: entries) =
  if decide (k0 = k ∧ v0 ≠ "") then v0 :: valuesUnder k entries else valuesUnder k entries.
Proof. unfold valuesUnder. rewrite filter_cons. simpl. by case_decide. Qed.

(** What one visit does to the set under [k]. *)
Lemma addLabel_lookup (labelsByKey labelsByKey' : LabelsByKey) k0 v0 k :
  addLabel labelsByKey (k0, v0) = Normal labelsByKey' →
  labelsByKey' !! k =
  if decide (k0 = k ∧ v0 ≠ "")
  then Some (Set_add v0 (default [] (labelsByKey !! k)))
  else labelsByKey !! k.
Proof.
  unfold addLabel. intros Hrun.
  destruct (truthy v0) eqn:Hv; simpl in Hrun.
  2:{ simplify_eq. apply truthy_false in Hv. rewrite decide_False; naive_solver. }
  apply truthy_true in Hv.
  destruct (Get labelsByKey k0) as [|s|m] eqn:Hget; simplify_eq.
  - apply Get_Undefined in Hget as [Hk _]. rewrite lookup_insert.
    destruct (decide (k0 = k)) as [->|Hne].
    + rewrite decide_True, Hk by done. reflexivity.
    + rewrite decide_False; naive_solver.
  - apply Get_SetObject in Hget. rewrite lookup_insert.
    destruct (decide (k0 = k)) as [->|Hne].
    + rewrite decide_True, Hget by done. done.
    + rewrite decide_False; naive_solver.
Qed.

(** What the visits of [entries] do to the set under [k]. *)
Lemma forEach_addLabel_lookup entries (labelsByKey labelsByKey' : LabelsByKey) k :
  forEach addLabel entries labelsByKey = Normal labelsByKey' →
  labelsByKey' !! k =
  match valuesUnder k entries with
  | [] => labelsByKey !! k
  | vs => Some (addAll (default [] (labelsByKey !! k)) vs)
  end.
Proof.
  revert labelsByKey. induction entries as [|[k0 v0] entries IH];
    intros labelsByKey Hrun.
  - simpl in Hrun. by simplify_eq.
  - rewrite forEach_cons in Hrun.
    destruct (addLabel labelsByKey (k0, v0)) as [labelsByKey1|] eqn:Hstep;
      simpl in Hrun; [|done].
    rewrite (IH _ Hrun), valuesUnder_cons, (addLabel_lookup _ _ _ _ k Hstep).
    destruct (decide (k0 = k ∧ v0 ≠ "")); [|done].
    by destruct (valuesUnder k entries).
Qed.

Lemma buildSuggestionIndex_flat (config : RulerRulesConfigDTO) :
  buildSuggestionIndex (Some config) = forEach addLabel (allEntries config) ∅.
Proof. apply forEach_addRule_flat. Qed.

(** X7. An index the builder returns has a key exactly for the keys with
    a non-empty value in the configuration, and holds under it those
    values in the order the rules are visited, each at its first
    occurrence. *)
Theorem buildSuggestionIndex_lookup (config : RulerRulesConfigDTO)
    (labelsByKey : LabelsByKey) (k : string) :
  buildSuggestionIndex (Some config) = Normal labelsByKey →
  labelsByKey !! k =
  match valuesUnder k (allEntries config) with
  | [] => None
  | vs => Some (Set_new vs)
  end.
Proof.
  rewrite buildSuggestionIndex_flat. intros Hrun.
  rewrite (forEach_addLabel_lookup _ _ _ k Hrun), lookup_empty. done.
Qed.

Lemma buildSuggestionIndex_lookup_witness :
  buildSuggestionIndex
    (Some [ namespace "a" [ rule [("team", "infra"); ("sev", "low")]; rule [("team", "")] ];
            namespace "b" [ ruleWithoutLabels; rule [("team", "core")];
                            rule [("team", "infra")] ] ])
  = Normal {[ "team" := ["infra"; "core"]; "sev" := ["low"] ]} ∧
  ({[ "team" := ["infra"; "core"]; "sev" := ["low"] ]} : LabelsByKey) !! "team"
  = Some (Set_new ["infra"; "core"; "infra"]).
Proof.
  assert (buildSuggestionIndex
    (Some [ namespace "a" [ rule [("team", "infra"); ("sev", "low")]; rule [("team", "")] ];
            namespace "b" [ ruleWithoutLabels; rule [("team", "core")];
                            rule [("team", "infra")] ] ])
    = Normal {[ "team" := ["infra"; "core"]; "sev" := ["low"] ]}) as Hrun
    by (vm_compute; reflexivity).
  split; [exact Hrun|].
  exact (buildSuggestionIndex_lookup _ _ "team" Hrun).
Defined.

(** ** Larger and rearranged configurations *)

Lemma allRules_app (config1 config2 : RulerRulesConfigDTO) :
  allRules (config1 ++ config2) = (allRules config1 ++ allRules config2)%list.
Proof. unfold allRules. by rewrite !flat_map_app. Qed.

Lemma rulesCarry_entries (rs : list RulerRuleDTO.t) k v :
  rulesCarry rs k v ↔ (k, v) ∈ rulesEntries rs.
Proof.
  unfold rulesCarry, rulesEntries. rewrite list_elem_of_In, in_flat_map. split.
  - intros (r & entries & Hr & Hl & Hkv). exists r.
    rewrite Hl. simpl. by split; apply list_elem_of_In.
  - intros (r & Hr & Hkv). apply (proj2 (list_elem_of_In _ _)) in Hr, Hkv.
    destruct (RulerRuleDTO.labels r) as [entries|] eqn:Hl; simpl in Hkv.
    + by exists r, entries.
    + by apply not_elem_of_nil in Hkv.
Qed.

Lemma carries_allEntries (config : RulerRulesConfigDTO) k v :
  carries config k v ↔ (k, v) ∈ allEntries config.
Proof. rewrite <- allRules_carry. apply rulesCarry_entries. Qed.

Lemma carries_app (config1 config2 : RulerRulesConfigDTO) k v :
  carries (config1 ++ config2) k v ↔ carries config1 k v ∨ carries config2 k v.
Proof.
  unfold carries. setoid_rewrite elem_of_app. naive_solver.
Qed.

(** X8. The namespaces are taken in turn: when the builder returns an
    index for a configuration followed by further namespaces, it returns
    one for the configuration alone, and every set of that index is the
    beginning of the set under the same key in the larger index. *)
Theorem buildSuggestionIndex_app (config1 config2 : RulerRulesConfigDTO)
    (labelsByKey : LabelsByKey) :
  buildSuggestionIndex (Some (config1 ++ config2)%list) = Normal labelsByKey →
  ∃ labelsByKey1,
    buildSuggestionIndex (Some config1) = Normal labelsByKey1 ∧
    forEach addRule (allRules config2) labelsByKey1 = Normal labelsByKey ∧
    ∀ k s1, labelsByKey1 !! k = Some s1 →
            ∃ s, labelsByKey !! k = Some s ∧ s1 `prefix_of` s.
Proof.
  simpl. rewrite allRules_app, forEach_app. intros Hrun.
  destruct (forEach addRule (allRules config1) ∅) as [labelsByKey1|]; simpl in Hrun; [|done].
  exists labelsByKey1. split_and!; [done..|]. intros k s1 Hs1.
  rewrite forEach_addRule_flat in Hrun.
  rewrite (forEach_addLabel_lookup _ _ _ k Hrun), Hs1; simpl.
  destruct (valuesUnder k (rulesEntries (allRules config2))) as [|v vs] eqn:Hvs.
  - by exists s1.
  - eexists. split; [done|]. apply (addAll_prefix s1 (v :: vs)).
Qed.

Lemma buildSuggestionIndex_app_witness :
  ∃ labelsByKey1,
    buildSuggestionIndex (Some [ namespace "a" [ rule [("team", "infra")] ] ])
      = Normal labelsByKey1 ∧
    forEach addRule
      (allRules [ namespace "b" [ rule [("team", "core"); ("sev", "low")] ] ]) labelsByKey1
      = Normal {[ "team" := ["infra"; "core"]; "sev" := ["low"] ]} ∧
    ∀ k s1, labelsByKey1 !! k = Some s1 →
            ∃ s, ({[ "team" := ["infra"; "core"]; "sev" := ["low"] ]} : LabelsByKey) !! k
                   = Some s ∧ s1 `prefix_of` s.
Proof.
  apply (buildSuggestionIndex_app [ namespace "a" [ rule [("team", "infra")] ] ]
           [ namespace "b" [ rule [("team", "core"); ("sev", "low")] ] ]).
  vm_compute. reflexivity.
Defined.

(** X9. Whether the builder throws, which keys the index has and which
    values it suggests depend only on which label pairs the rules carry:
    not on the namespaces, the grouping or the order of the rules, nor on
    how often a pair occurs. *)
Theorem buildSuggestionIndex_extensional (config1 config2 : RulerRulesConfigDTO) :
  (∀ k v, carries config1 k v ↔ carries config2 k v) →
  (buildSuggestionIndex (Some config1) = ThrowTypeError ↔
   buildSuggestionIndex (Some config2) = ThrowTypeError) ∧
  ∀ labelsByKey1 labelsByKey2,
    buildSuggestionIndex (Some config1) = Normal labelsByKey1 →
    buildSuggestionIndex (Some config2) = Normal labelsByKey2 →
    dom labelsByKey1 = dom labelsByKey2 ∧
    ∀ k v, suggests labelsByKey1 k v ↔ suggests labelsByKey2 k v.
Proof.
  intros Hsame. split.
  - simpl. rewrite !rules_throw by apply wellFormed_empty.
    setoid_rewrite allRules_carry. by setoid_rewrite Hsame.
  - intros labelsByKey1 labelsByKey2 Hrun1 Hrun2.
    assert (∀ k v, suggests labelsByKey1 k v ↔ suggests labelsByKey2 k v) as Hsug.
    { intros k v. rewrite (buildSuggestionIndex_suggests _ _ _ _ Hrun1),
        (buildSuggestionIndex_suggests _ _ _ _ Hrun2), Hsame. done. }
    split; [|done].
    assert (∀ (m : LabelsByKey) k, wellFormed m → k ∈ dom m ↔ ∃ v, suggests m k v) as Hdom.
    { intros m k Hwf. rewrite elem_of_dom. unfold suggests. split.
      - intros [s Hs]. destruct (Hwf _ _ Hs) as (Hne & _ & _).
        destruct s as [|v s]; [done|]. exists v, (v :: s). split; [done|left].
      - intros (v & s & Hs & _). by exists s. }
    apply set_eq. intros k.
    rewrite !Hdom by by eapply buildSuggestionIndex_wellFormed.
    by setoid_rewrite Hsug.
Qed.

Lemma buildSuggestionIndex_extensional_witness :
  (buildSuggestionIndex
     (Some [ namespace "a" [ rule [("team", "infra")]; rule [("team", "core")] ] ])
   = ThrowTypeError ↔
   buildSuggestionIndex
     (Some [ namespace "b" [ rule [("team", "core")] ];
             namespace "c" [ rule [("team", "infra"); ("team", "core")] ] ])
   = ThrowTypeError) ∧
  ∀ labelsByKey1 labelsByKey2,
    buildSuggestionIndex
      (Some [ namespace "a" [ rule [("team", "infra")]; rule [("team", "core")] ] ])
    = Normal labelsByKey1 →
    buildSuggestionIndex
      (Some [ namespace "b" [ rule [("team", "core")] ];
              namespace "c" [ rule [("team", "infra"); ("team", "core")] ] ])
    = Normal labelsByKey2 →
    dom labelsByKey1 = dom labelsByKey2 ∧
    ∀ k v, suggests labelsByKey1 k v ↔ suggests labelsByKey2 k v.
Proof.
  apply (buildSuggestionIndex_extensional
           [ namespace "a" [ rule [("team", "infra")]; rule [("team", "core")] ] ]
           [ namespace "b" [ rule [("team", "core")] ];
             namespace "c" [ rule [("team", "infra"); ("team", "core")] ] ]).
  intros k v. rewrite !carries_allEntries. vm_compute allEntries.
  rewrite !elem_of_cons, !elem_of_nil. naive_solver.
Defined.

Lemma addLabel_known (labelsByKey : LabelsByKey) k v :
  v = "" ∨ suggests labelsByKey k v → addLabel labelsByKey (k, v) = Normal labelsByKey.
Proof.
  unfold addLabel. destruct (truthy v) eqn:Hv; simpl; [|done]. apply truthy_true in Hv.
  intros [?|(s & Hs & Hin)]; [done|].
  apply Get_SetObject in Hs as Hget. rewrite Hget. f_equal.
  unfold Set_add. rewrite decide_True by done. by apply insert_id.
Qed.

Lemma forEach_addLabel_known entries (labelsByKey : LabelsByKey) :
  (∀ k v, (k, v) ∈ entries → v = "" ∨ suggests labelsByKey k v) →
  forEach addLabel entries labelsByKey = Normal labelsByKey.
Proof.
  induction entries as [|[k v] entries IH]; intros Hknown; [done|].
  rewrite forEach_cons, addLabel_known by (apply Hknown; left). simpl.
  apply IH. intros k' v' ?. apply Hknown. by right.
Qed.

(** X10. Further rules that carry only label pairs the configuration has
    already, or empty values, leave the index as it is, the order of the
    values included. *)
Theorem buildSuggestionIndex_repeated (config more : RulerRulesConfigDTO)
    (labelsByKey : LabelsByKey) :
  buildSuggestionIndex (Some config) = Normal labelsByKey →
  (∀ k v, carries more k v → v ≠ "" → carries config k v) →
  buildSuggestionIndex (Some (config ++ more)%list) = Normal labelsByKey.
Proof.
  intros Hrun Hmore. simpl. rewrite allRules_app, forEach_app.
  simpl in Hrun. rewrite Hrun. simpl. rewrite forEach_addRule_flat.
  apply forEach_addLabel_known. intros k v Hkv.
  destruct (decide (v = "")) as [|Hv]; [by left|right].
  apply (buildSuggestionIndex_suggests config); [done|].
  split; [|done]. apply Hmore; [|done]. by apply carries_allEntries.
Qed.

Lemma buildSuggestionIndex_repeated_witness :
  buildSuggestionIndex (Some (sevConfig ++ sevConfig)%list)
  = Normal {[ "sev" := ["high"; "low"] ]}.
Proof.
  apply (buildSuggestionIndex_repeated sevConfig sevConfig).
  - vm_compute. reflexivity.
  - intros k v Hkv _. exact Hkv.
Defined.

(** ** Rendering again *)



(** ** The options of an index the builder returned *)

(** X12. For an index the builder returned and a key that is not named
    like a member of [Object.prototype], no value option occurs twice, and
    each carries as label and as value the same non-empty string, one the
    configuration has under that key. *)
Theorem getValuesForLabel_built (config : RulerRulesConfigDTO)
    (labelsByKey : LabelsByKey) (key : string) :
  buildSuggestionIndex (Some config) = Normal labelsByKey →
  ¬ inherited key →
  NoDup (getValuesForLabel labelsByKey key) ∧
  ∀ option, option ∈ getValuesForLabel labelsByKey key →
    ∃ v, option = {| SelectableValue.label := Some v; SelectableValue.value := Some v |} ∧
         v ≠ "" ∧ carries config key v.
Proof.
  intros Hrun Hkey. unfold getValuesForLabel.
  destruct (labelsByKey !! key) as [s|] eqn:Hs.
  - rewrite (proj2 (Get_SetObject _ _ _) Hs). simpl.
    destruct (buildSuggestionIndex_wellFormed _ _ Hrun _ _ Hs) as (_ & Hnd & _). split.
    + apply NoDup_fmap_2; [|done]. intros x y ?. by simplify_eq.
    + intros option Hopt. apply (proj1 (list_elem_of_In _ _)), in_map_iff in Hopt
        as (v & <- & Hv). apply (proj2 (list_elem_of_In _ _)) in Hv.
      exists v. split; [done|].
      destruct (proj1 (buildSuggestionIndex_suggests config labelsByKey key v Hrun))
        as [? ?]; [by exists s|done].
  - rewrite (proj2 (Get_Undefined _ _) (conj Hs Hkey)). simpl.
    split; [apply NoDup_nil_2|]. intros option Hopt. by apply not_elem_of_nil in Hopt.
Qed.

Lemma getValuesForLabel_built_witness :
  NoDup (getValuesForLabel {[ "sev" := ["high"; "low"] ]} "sev") ∧
  ∀ option, option ∈ getValuesForLabel {[ "sev" := ["high"; "low"] ]} "sev" →
    ∃ v, option = {| SelectableValue.label := Some v; SelectableValue.value := Some v |} ∧
         v ≠ "" ∧ carries sevConfig "sev" v.
Proof.
  apply (getValuesForLabel_built sevConfig {[ "sev" := ["high"; "low"] ]} "sev").
  - vm_compute. reflexivity.
  - intros [m Hm]. vm_compute in Hm. discriminate.
Defined.

(** X13. For an index the builder returned, the key options are one per
    key with a suggestion, each with the key as label and as value, and
    every key offered has at least one value option. *)
Theorem keys_built (config : option RulerRulesConfigDTO) (labelsByKey : LabelsByKey)
    (ownKeys : list string) :
  buildSuggestionIndex config = Normal labelsByKey →
  enumerates ownKeys labelsByKey →
  NoDup (keys ownKeys) ∧
  (∀ k, (∃ v, suggests labelsByKey k v) ↔
        {| SelectableValue.label := Some k; SelectableValue.value := Some k |}
          ∈ keys ownKeys) ∧
  ∀ option, option ∈ keys ownKeys →
    ∃ k, option = {| SelectableValue.label := Some k; SelectableValue.value := Some k |} ∧
         ¬ inherited k ∧ getValuesForLabel labelsByKey k ≠ [].
Proof.
  intros Hrun [Hnd Hown]. apply buildSuggestionIndex_wellFormed in Hrun as Hwf.
  unfold keys. split_and!.
  - apply NoDup_fmap_2; [|done]. intros x y ?. by simplify_eq.
  - intros k. rewrite list_elem_of_fmap. split.
    + intros (v & s & Hs & _). exists k. split; [done|]. apply Hown. by exists s.
    + intros (k' & ? & Hk). simplify_eq. apply Hown in Hk as [s Hs].
      destruct (Hwf _ _ Hs) as (Hne & _ & _).
      destruct s as [|v s]; [done|]. exists v, (v :: s). split; [done|left].
  - intros option Hopt. apply list_elem_of_fmap in Hopt as (k & -> & Hk).
    exists k. split; [done|]. apply Hown in Hk as [s Hs].
    destruct (Hwf _ _ Hs) as (Hne & _ & Hproto). split; [done|].
    unfold getValuesForLabel. rewrite (proj2 (Get_SetObject _ _ _) Hs). simpl.
    by destruct s.
Qed.

Lemma keys_built_witness :
  NoDup (keys ["sev"]) ∧
  (∀ k, (∃ v, suggests {[ "sev" := ["high"; "low"] ]} k v) ↔
        {| SelectableValue.label := Some k; SelectableValue.value := Some k |}
          ∈ keys ["sev"]) ∧
  ∀ option, option ∈ keys ["sev"] →
    ∃ k, option = {| SelectableValue.label := Some k; SelectableValue.value := Some k |} ∧
         ¬ inherited k ∧ getValuesForLabel {[ "sev" := ["high"; "low"] ]} k ≠ [].
Proof.
  apply (keys_built (Some sevConfig) {[ "sev" := ["high"; "low"] ]} ["sev"]).
  - vm_compute. reflexivity.
  - split; [apply NoDup_singleton|]. intros k.
    rewrite list_elem_of_singleton. split.
    + intros ->. by eexists.
    + intros [s Hs]. destruct (decide (k = "sev")) as [|Hne]; [done|].
      by rewrite lookup_singleton_ne in Hs.
Defined.

(** ** Validation and the handlers together *)

(** X14. The two checks never both report the same entry, and an entry
    passes both exactly when its key and its value are both empty or both
    filled in; where there is no entry both pass. *)
Theorem validate_never_both (ls : list LabelEntry.t) (index : nat) :
  (validateKey ls index = None ∨ validateValue ls index = None) ∧
  ((validateKey ls index = None ∧ validateValue ls index = None) ↔
   ∀ e, ls !! index = Some e → (LabelEntry.key e = "" ↔ LabelEntry.value e = "")).
Proof.
  unfold validateKey, validateValue, keyRequired, valueRequired, applyRequired.
  destruct (ls !! index) as [[k v]|]; simpl.
  - destruct (truthy k) eqn:Hk; [apply truthy_true in Hk|apply truthy_false in Hk];
      (destruct (truthy v) eqn:Hv; [apply truthy_true in Hv|apply truthy_false in Hv]);
      simpl; (split; [auto|]); split; naive_solver.
  - split; [auto|]. naive_solver.
Qed.

(** X15. Opening the value suggestions throws exactly at an index beyond
    the entries, where [labels[index]] is [undefined]; the validation
    rules, which read the entry with [?.], pass there. *)
Theorem onOpenValueSuggestions_throws (s : State) (index : nat) :
  (onOpenValueSuggestions index s = ThrowTypeError ↔ (length (labels s) ≤ index)%nat) ∧
  (onOpenValueSuggestions index s = ThrowTypeError →
   validateKey (labels s) index = None ∧ validateValue (labels s) index = None).
Proof.
  unfold onOpenValueSuggestions, validateKey, validateValue, keyRequired, valueRequired.
  destruct (labels s !! index) as [e|] eqn:He.
  - apply lookup_lt_Some in He. split; [|intros H; discriminate H].
    split; [intros H; discriminate H|lia].
  - apply lookup_ge_None in He. simpl. by split.
Qed.

Lemma onOpenValueSuggestions_throws_witness :
  let s := {| labels := [ {| LabelEntry.key := "team"; LabelEntry.value := "" |} ];
              selectedKey := "" |} in
  onOpenValueSuggestions 1 s = ThrowTypeError ∧
  validateKey (labels s) 1 = None ∧ validateValue (labels s) 1 = None.
Proof.
  intros s. split; [reflexivity|].
  exact (proj2 (onOpenValueSuggestions_throws s 1) eq_refl).
Defined.

(** X16. [addEntry] puts an entry with an empty key and an empty value
    after the entries there are, keeps those and the selected key, and
    changes the outcome of neither check at any index: the new entry
    passes both. *)
Theorem addEntry_valid (s : State) :
  let s' := addEntry s in
  selectedKey s' = selectedKey s ∧
  length (labels s') = S (length (labels s)) ∧
  (∀ j, labels s' !! j =
        if decide (j = length (labels s))
        then Some {| LabelEntry.key := ""; LabelEntry.value := "" |}
        else labels s !! j) ∧
  (∀ j, validateKey (labels s') j = validateKey (labels s) j ∧
        validateValue (labels s') j = validateValue (labels s) j).
Proof.
  simpl. unfold append.
  assert (∀ j, (labels s ++ [ {| LabelEntry.key := ""; LabelEntry.value := "" |} ])%list !! j =
               if decide (j = length (labels s))
               then Some {| LabelEntry.key := ""; LabelEntry.value := "" |}
               else labels s !! j) as Hlookup.
  { intros j. case_decide as Hj.
    - subst. by rewrite list_lookup_middle.
    - destruct (decide (j < length (labels s))%nat).
      + by rewrite lookup_app_l.
      + rewrite !lookup_ge_None_2; [done|lia|rewrite length_app; simpl; lia]. }
  split_and!; [done|rewrite length_app; simpl; lia|done|].
  intros j. unfold validateKey, validateValue, keyRequired, valueRequired.
  rewrite Hlookup. case_decide as Hj; [|done].
  subst. by rewrite (lookup_ge_None_2 (labels s)).
Qed.

(** X17. Giving the entry at [index] a key and a value, in either order,
    leaves it with that key and that value and selects the key; the key is
    then reported exactly when it is empty and the value is not, and the
    value exactly when it is empty and the key is not. *)
Theorem setEntryKey_setEntryValue (s : State) (index : nat) (entry : LabelEntry.t)
    (newKey newValue : string) :
  labels s !! index = Some entry →
  let s' := setEntryValue index newValue (setEntryKey index newKey s) in
  setEntryKey index newKey (setEntryValue index newValue s) = s' ∧
  selectedKey s' = newKey ∧
  labels s' !! index = Some {| LabelEntry.key := newKey; LabelEntry.value := newValue |} ∧
  (validateKey (labels s') index = Some "Required." ↔ newKey = "" ∧ newValue ≠ "") ∧
  (validateValue (labels s') index = Some "Required." ↔ newValue = "" ∧ newKey ≠ "").
Proof.
  intros Hentry. simpl.
  assert (setValue_value index newValue (setValue_key index newKey (labels s)) !! index =
          Some {| LabelEntry.key := newKey; LabelEntry.value := newValue |}) as Hnew.
  { by rewrite setValue_value_lookup, decide_True, setValue_key_lookup, decide_True, Hentry. }
  split_and!; [|done|done|..].
  - unfold setEntryKey, setEntryValue; simpl. f_equal. apply list_eq. intros j.
    rewrite setValue_key_lookup, !setValue_value_lookup, setValue_key_lookup.
    case_decide; [|done]. by destruct (labels s !! j).
  - unfold validateKey, keyRequired, applyRequired. rewrite Hnew; simpl.
    destruct (truthy newKey) eqn:Hk; [apply truthy_true in Hk|apply truthy_false in Hk];
      (destruct (truthy newValue) eqn:Hv;
         [apply truthy_true in Hv|apply truthy_false in Hv]); simpl; naive_solver.
  - unfold validateValue, valueRequired, applyRequired. rewrite Hnew; simpl.
    destruct (truthy newKey) eqn:Hk; [apply truthy_true in Hk|apply truthy_false in Hk];
      (destruct (truthy newValue) eqn:Hv;
         [apply truthy_true in Hv|apply truthy_false in Hv]); simpl; naive_solver.
Qed.

Lemma setEntryKey_setEntryValue_witness :
  let s := {| labels := [ {| LabelEntry.key := ""; LabelEntry.value := "" |} ];
              selectedKey := "" |} in
  let s' := setEntryValue 0 "" (setEntryKey 0 "team" s) in
  setEntryKey 0 "team" (setEntryValue 0 "" s) = s' ∧
  selectedKey s' = "team" ∧
  labels s' !! 0 = Some {| LabelEntry.key := "team"; LabelEntry.value := "" |} ∧
  (validateKey (labels s') 0 = Some "Required." ↔ "team" = "" ∧ "" ≠ "") ∧
  (validateValue (labels s') 0 = Some "Required." ↔ "" = "" ∧ "team" ≠ "").
Proof.
  intros s.
  exact (setEntryKey_setEntryValue s 0 {| LabelEntry.key := ""; LabelEntry.value := "" |}
           "team" "" eq_refl).
Defined.

(** ** What is rendered *)



(** X19. [LabelsField] mounts the editor with suggestions, which asks for
    the rules of the data source, exactly for a data source name that is a
    non-empty string; without a name, or with the empty name, it mounts the
    plain editor and asks for nothing. *)
Theorem LabelsField_dispatched (dataSourceName : option string) :
  (∀ name, name ∈ dispatched (LabelsField dataSourceName) ↔
           dataSourceName = Some name ∧ name ≠ "") ∧
  (LabelsField dataSourceName = WithoutSuggestions ↔
   dataSourceName = None ∨ dataSourceName = Some "").
Proof.
  unfold LabelsField. destruct dataSourceName as [n|]; simpl.
  - destruct (truthy n) eqn:Hn; [apply truthy_true in Hn|apply truthy_false in Hn];
      simpl; split.
    + intros name. rewrite list_elem_of_singleton. naive_solver.
    + naive_solver.
    + intros name. rewrite elem_of_nil. naive_solver.
    + naive_solver.
  - split; [|naive_solver]. intros name. rewrite elem_of_nil. naive_solver.
Qed.
